(** * Secure settings store of main.js (secureStore, loadSettings, saveSettings)

    Shallow embedding of the settings persistence code in src/main.js:
    - JSON values and the JS object operations the code relies on
      (JSON.stringify with an indent of 2, JSON.parse, object spread);
    - node's fs calls as a state-and-exception monad over the disk;
    - Electron's safeStorage as an abstract capability record.

    Paths are the base names inside the per-user application-data
    directory (app.getPath('userData')), which the code joins in front. *)

From Stdlib Require Import String Ascii ZArith.
From stdpp Require Import base gmap strings list pretty.

Open Scope string_scope.
Set Warnings "-register-all".

(* ------------------------------------------------------------------ *)
(** ** JSON values and JS objects *)

(** A JS object is its list of own enumerable properties in insertion
    order.  Numbers are modelled as integers. *)
Inductive json : Type :=
| JNull
| JBool (b : bool)
| JNum (n : Z)
| JStr (s : string)
| JArr (l : list json)
| JObj (o : list (string * json)).

Abbreviation obj := (list (string * json)).

(** [o[k] = v]: an existing key keeps its position, a new key is appended. *)
Fixpoint obj_set (o : obj) (k : string) (v : json) : obj :=
  match o with
  | [] => [(k, v)]
  | (k', v') :: o' =>
      if String.eqb k k' then (k', v) :: o' else (k', v') :: obj_set o' k v
  end.

Fixpoint obj_get (o : obj) (k : string) : option json :=
  match o with
  | [] => None
  | (k', v') :: o' => if String.eqb k k' then Some v' else obj_get o' k
  end.

(** JS truthiness ([if (loaded)]). *)
Definition truthy (v : json) : bool :=
  match v with
  | JNull => false
  | JBool b => b
  | JNum n => negb (Z.eqb n 0)
  | JStr s => negb (String.eqb s EmptyString)
  | JArr _ | JObj _ => true
  end.

(** Own enumerable properties that object spread copies: the
    properties of an object, the indices of an array or of a string,
    and nothing for null, booleans and numbers. *)
Definition own_props (v : json) : obj :=
  match v with
  | JObj o => o
  | JArr l => imap (fun i x => (pretty i, x)) l
  | JStr s => imap (fun i c => (pretty i, JStr (String c EmptyString)))
                   (list_ascii_of_string s)
  | _ => []
  end.

(** [{ ...target, ...v }] restricted to the second spread. *)
Definition spread (target : obj) (v : json) : obj :=
  fold_left (fun acc kv => obj_set acc kv.1 kv.2) (own_props v) target.

(* ------------------------------------------------------------------ *)
(** ** JSON.stringify(value, null, 2) *)

Definition ch (n : nat) : string := String (ascii_of_nat n) EmptyString.
Definition nl : string := ch 10.
Definition dq : string := ch 34.
Definition bs : string := ch 92.

Definition hex_digit (n : nat) : string :=
  ch (if Nat.ltb n 10 then 48 + n else 87 + n).

(** Escapes of JSON.stringify for one character. *)
Definition escape_char (c : ascii) : string :=
  let n := nat_of_ascii c in
  if Nat.eqb n 34 then bs ++ dq
  else if Nat.eqb n 92 then bs ++ bs
  else if Nat.eqb n 8 then bs ++ "b"
  else if Nat.eqb n 12 then bs ++ "f"
  else if Nat.eqb n 10 then bs ++ "n"
  else if Nat.eqb n 13 then bs ++ "r"
  else if Nat.eqb n 9 then bs ++ "t"
  else if Nat.ltb n 32 then bs ++ "u00" ++ hex_digit (n / 16) ++ hex_digit (n mod 16)
  else String c EmptyString.

Fixpoint escape (s : string) : string :=
  match s with
  | EmptyString => EmptyString
  | String c s' => escape_char c ++ escape s'
  end.

Definition quote (s : string) : string := dq ++ escape s ++ dq.

Fixpoint join (sep : string) (l : list string) : string :=
  match l with
  | [] => EmptyString
  | [x] => x
  | x :: l' => x ++ sep ++ join sep l'
  end.

(** Serialisation at the current indentation [ind]; nesting adds two
    spaces, as JSON.stringify does with a space argument of 2. *)
Fixpoint stringify_at (ind : string) (v : json) : string :=
  let ind' := ind ++ "  " in
  match v with
  | JNull => "null"
  | JBool true => "true"
  | JBool false => "false"
  | JNum n => pretty n
  | JStr s => quote s
  | JArr [] => "[]"
  | JArr l =>
      "[" ++ nl ++ ind'
      ++ join ("," ++ nl ++ ind') (map (stringify_at ind') l)
      ++ nl ++ ind ++ "]"
  | JObj [] => "{}"
  | JObj o =>
      "{" ++ nl ++ ind'
      ++ join ("," ++ nl ++ ind')
              (map (fun kv => quote kv.1 ++ ": " ++ stringify_at ind' kv.2) o)
      ++ nl ++ ind ++ "}"
  end.

Definition stringify (v : json) : string := stringify_at EmptyString v.

(* ------------------------------------------------------------------ *)
(** ** JSON.parse *)

(** A recursive-descent reader over the characters of the text.  It
    returns [None] where JSON.parse throws a SyntaxError.  Strings are
    byte strings, so a [\u] escape is read only below 256; a number
    with a fraction or an exponent is outside the integer model and is
    also refused. *)

Definition is_ws (c : ascii) : bool :=
  let n := nat_of_ascii c in
  Nat.eqb n 32 || Nat.eqb n 10 || Nat.eqb n 13 || Nat.eqb n 9.

Fixpoint skip_ws (l : list ascii) : list ascii :=
  match l with
  | c :: l' => if is_ws c then skip_ws l' else l
  | [] => []
  end.

Definition is_char (n : nat) (c : ascii) : bool := Nat.eqb (nat_of_ascii c) n.

(** Consume the exact characters of [lit]. *)
Fixpoint eat (lit : list ascii) (l : list ascii) : option (list ascii) :=
  match lit, l with
  | [], _ => Some l
  | c :: lit', d :: l' => if Ascii.eqb c d then eat lit' l' else None
  | _ :: _, [] => None
  end.

Definition hex_val (c : ascii) : option nat :=
  let n := nat_of_ascii c in
  if (Nat.leb 48 n) && (Nat.leb n 57) then Some (n - 48)
  else if (Nat.leb 97 n) && (Nat.leb n 102) then Some (n - 87)
  else if (Nat.leb 65 n) && (Nat.leb n 70) then Some (n - 55)
  else None.

(** The characters of a string literal after its opening quote. *)
Fixpoint read_str (l : list ascii) (acc : list ascii) : option (string * list ascii) :=
  match l with
  | [] => None
  | c :: l' =>
      if is_char 34 c then Some (string_of_list_ascii (rev acc), l')
      else if is_char 92 c then
        match l' with
        | e :: l'' =>
            let simple := fun n => read_str l'' (ascii_of_nat n :: acc) in
            if is_char 34 e then simple 34
            else if is_char 92 e then simple 92
            else if is_char 47 e then simple 47
            else if is_char 98 e then simple 8
            else if is_char 102 e then simple 12
            else if is_char 110 e then simple 10
            else if is_char 114 e then simple 13
            else if is_char 116 e then simple 9
            else if is_char 117 e then
              match l'' with
              | h1 :: h2 :: h3 :: h4 :: r =>
                  match hex_val h1, hex_val h2, hex_val h3, hex_val h4 with
                  | Some a, Some b, Some c3, Some d =>
                      let code := ((a * 16 + b) * 16 + c3) * 16 + d in
                      if Nat.ltb code 256 then read_str r (ascii_of_nat code :: acc)
                      else None
                  | _, _, _, _ => None
                  end
              | _ => None
              end
            else None
        | [] => None
        end
      else if Nat.ltb (nat_of_ascii c) 32 then None
      else read_str l' (c :: acc)
  end.

Definition is_digit (c : ascii) : bool :=
  let n := nat_of_ascii c in (Nat.leb 48 n) && (Nat.leb n 57).

Fixpoint read_digits (l : list ascii) (acc : Z) : Z * list ascii :=
  match l with
  | c :: l' =>
      if is_digit c then read_digits l' (acc * 10 + Z.of_nat (nat_of_ascii c - 48))%Z
      else (acc, l)
  | [] => (acc, l)
  end.

(** An integer literal: optional minus, then [0] or a nonzero digit
    followed by digits. *)
Definition read_number (l : list ascii) : option (Z * list ascii) :=
  let '(neg, l1) :=
    match l with
    | c :: l' => if is_char 45 c then (true, l') else (false, l)
    | [] => (false, l)
    end in
  let magnitude :=
    match l1 with
    | c :: l' =>
        if is_char 48 c then Some (0%Z, l')
        else if is_digit c then Some (read_digits l1 0%Z)
        else None
    | [] => None
    end in
  match magnitude with
  | Some (m, r) =>
      match r with
      | c :: _ =>
          if is_char 46 c || is_char 101 c || is_char 69 c then None
          else Some (if neg then Z.opp m else m, r)
      | [] => Some (if neg then Z.opp m else m, r)
      end
  | None => None
  end.

Fixpoint read_value (fuel : nat) (l : list ascii) : option (json * list ascii) :=
  match fuel with
  | O => None
  | S f =>
    match skip_ws l with
    | [] => None
    | c :: r =>
      if is_char 110 c then
        option_map (fun r' => (JNull, r')) (eat (list_ascii_of_string "ull") r)
      else if is_char 116 c then
        option_map (fun r' => (JBool true, r')) (eat (list_ascii_of_string "rue") r)
      else if is_char 102 c then
        option_map (fun r' => (JBool false, r')) (eat (list_ascii_of_string "alse") r)
      else if is_char 34 c then
        option_map (fun sr => (JStr sr.1, sr.2)) (read_str r [])
      else if is_char 91 c then
        match skip_ws r with
        | d :: r' => if is_char 93 d then Some (JArr [], r') else read_elems f r []
        | [] => None
        end
      else if is_char 123 c then
        match skip_ws r with
        | d :: r' => if is_char 125 d then Some (JObj [], r') else read_members f r []
        | [] => None
        end
      else option_map (fun nr => (JNum nr.1, nr.2)) (read_number (c :: r))
    end
  end
with read_elems (fuel : nat) (l : list ascii) (acc : list json)
  : option (json * list ascii) :=
  match fuel with
  | O => None
  | S f =>
    match read_value f l with
    | Some (v, r) =>
        match skip_ws r with
        | d :: r' =>
            if is_char 44 d then read_elems f r' (v :: acc)
            else if is_char 93 d then Some (JArr (rev (v :: acc)), r')
            else None
        | [] => None
        end
    | None => None
    end
  end
with read_members (fuel : nat) (l : list ascii) (acc : obj)
  : option (json * list ascii) :=
  match fuel with
  | O => None
  | S f =>
    match skip_ws l with
    | q :: r =>
      if is_char 34 q then
        match read_str r [] with
        | Some (k, r1) =>
            match skip_ws r1 with
            | col :: r2 =>
                if is_char 58 col then
                  match read_value f r2 with
                  | Some (v, r3) =>
                      (* JSON.parse defines each member in turn: a repeated
                         key keeps its first position and its last value *)
                      let acc' := obj_set acc k v in
                      match skip_ws r3 with
                      | d :: r4 =>
                          if is_char 44 d then read_members f r4 acc'
                          else if is_char 125 d then Some (JObj acc', r4)
                          else None
                      | [] => None
                      end
                  | None => None
                  end
                else None
            | [] => None
            end
        | None => None
        end
      else None
    | [] => None
    end
  end.

(** Every call consumes at least one character of the text before the
    next one, so twice the length plus two is enough fuel. *)
Definition parse (s : string) : option json :=
  let l := list_ascii_of_string s in
  match read_value (2 * length l + 2) l with
  | Some (v, r) => match skip_ws r with [] => Some v | _ => None end
  | None => None
  end.

(* ------------------------------------------------------------------ *)
(** ** node's fs as a state-and-exception monad over the disk *)

Inductive error : Type :=
| ENOENT        (** no such file *)
| EACCES        (** the write or unlink is refused by the file system *)
| ECRYPT        (** safeStorage.encryptString / decryptString throws *)
| SyntaxError.  (** JSON.parse throws *)

Inductive outcome (A : Type) : Type :=
| Ok (a : A)
| Exn (e : error).
Arguments Ok {A} a.
Arguments Exn {A} e.

(** The disk: file contents by path. *)
Abbreviation disk := (gmap string string).

(** A computation returns or throws, and keeps the effects it made
    before a throw. *)
Definition M (A : Type) : Type := disk -> outcome A * disk.

Global Instance M_ret : MRet M := fun A a d => (Ok a, d).
Global Instance M_bind : MBind M := fun A B f m d =>
  match m d with
  | (Ok a, d') => f a d'
  | (Exn e, d') => (Exn e, d')
  end.

(** Bind with the computation first, so that the type of the bound
    variable is known when the continuation is read. *)
Definition bindM {A B} (m : M A) (f : A -> M B) : M B := mbind f m.
Notation "x <- m ; k" := (bindM m (fun x => k))
  (at level 20, m at level 100, k at level 200, only parsing).

Definition throw {A} (e : error) : M A := fun d => (Exn e, d).

(** [try { m } catch (error) { h(error) }] *)
Definition try_catch {A} (m : M A) (h : error -> M A) : M A := fun d =>
  match m d with
  | (Exn e, d') => h e d'
  | r => r
  end.

Definition of_option {A} (e : error) (o : option A) : M A :=
  match o with Some a => mret a | None => throw e end.

(** [filePath.replace(pat, rep)]: only the first occurrence is replaced. *)
Definition js_replace (s pat rep : string) : string :=
  match String.index 0 pat s with
  | Some i =>
      let j := i + String.length pat in
      substring 0 i s ++ rep ++ substring j (String.length s - j) s
  | None => s
  end.

(** Electron's safeStorage.  [encryptString] and [decryptString] return
    [None] where they throw (keystore unreachable, corrupt blob, blob of
    another key). *)
Record SafeStorage : Type := {
  isEncryptionAvailable : bool;
  encryptString : string -> option string;
  decryptString : string -> option string
}.

Section Store.

(** The platform's safeStorage, and the paths whose writes and unlinks
    the file system refuses (read-only directory, full disk, ...). *)
Context (ss : SafeStorage) (unwritable : gset string).

Definition existsSync (p : string) : M bool := fun d =>
  (Ok (bool_decide (is_Some (d !! p))), d).

Definition readFileSync (p : string) : M string := fun d =>
  match d !! p with
  | Some c => (Ok c, d)
  | None => (Exn ENOENT, d)
  end.

Definition writeFileSync (p c : string) : M unit := fun d =>
  if bool_decide (p ∈ unwritable) then (Exn EACCES, d) else (Ok tt, <[p:=c]> d).

Definition unlinkSync (p : string) : M unit := fun d =>
  match d !! p with
  | None => (Exn ENOENT, d)
  | Some _ =>
      if bool_decide (p ∈ unwritable) then (Exn EACCES, d) else (Ok tt, delete p d)
  end.

(** secureStore.save (main.js lines 29-48). *)
Definition secureStore_save (filePath : string) (data : json) : M bool :=
  try_catch
    (let jsonString := stringify data in
     (if isEncryptionAvailable ss then
        encrypted <- of_option ECRYPT (encryptString ss jsonString);
        writeFileSync filePath encrypted
      else
        (* console.warn('Encryption not available - saving unencrypted') *)
        writeFileSync (filePath ++ ".json") jsonString) ;;
     mret true)
    (fun _ => mret false).

(** secureStore.load (main.js lines 51-81).  The inner [option] is the
    early [return JSON.parse(decrypted)] of the encrypted branch. *)
Definition secureStore_load (filePath : string) (defaultValue : json) : M json :=
  try_catch
    (exists_current <- existsSync filePath;
     current ←
       (if exists_current then
          encrypted <- readFileSync filePath;
          if isEncryptionAvailable ss then
            decrypted <- of_option ECRYPT (decryptString ss encrypted);
            parsed <- of_option SyntaxError (parse decrypted);
            mret (Some parsed)
          else mret None
        else mret None : M (option json));
     match current with
     | Some parsed => mret parsed
     | None =>
         let legacyPath := js_replace filePath ".enc" ".json" in
         exists_legacy <- existsSync legacyPath;
         if exists_legacy then
           data <- readFileSync legacyPath;
           parsed <- of_option SyntaxError (parse data);
           (if isEncryptionAvailable ss then
              (* the returned flag of save is not inspected *)
              secureStore_save filePath parsed ;;
              unlinkSync legacyPath
            else mret tt) ;;
           mret parsed
         else mret defaultValue
     end)
    (fun _ => mret defaultValue).

(** secureStore.delete (main.js lines 84-98). *)
Definition secureStore_delete (filePath : string) : M bool :=
  try_catch
    (exists_current <- existsSync filePath;
     (if exists_current then unlinkSync filePath else mret tt) ;;
     let legacyPath := js_replace filePath ".enc" ".json" in
     exists_legacy <- existsSync legacyPath;
     (if exists_legacy then unlinkSync legacyPath else mret tt) ;;
     mret true)
    (fun _ => mret false).

Definition settingsPath : string := "settings.enc".
Definition legacySettingsPath : string := "settings.json".

Definition defaultSettings : obj :=
  [("startMinimized", JBool false);
   ("minimizeToTray", JBool true);
   ("startAtLogin", JBool false)].

(** The value loadSettings builds from what the store returned:
    [loaded ? { ...defaultSettings, ...loaded } : defaultSettings]. *)
Definition merge_loaded (loaded : json) : obj :=
  if truthy loaded
  then spread (spread [] (JObj defaultSettings)) loaded
  else defaultSettings.

(** loadSettings (main.js lines 102-108). *)
Definition loadSettings : M obj :=
  loaded <- secureStore_load settingsPath JNull;
  mret (merge_loaded loaded).

(** saveSettings (main.js lines 111-113). *)
Definition saveSettings (settings : obj) : M bool :=
  secureStore_save settingsPath (JObj settings).

End Store.

(** A keystore for concrete runs: ciphertexts carry a version prefix,
    and a blob without it fails to decrypt. *)
Definition ks_prefix : string := "v10".

Definition toy_decrypt (b : string) : option string :=
  if String.prefix ks_prefix b
  then Some (substring 3 (String.length b - 3) b) else None.

Definition keystore_up : SafeStorage := {|
  isEncryptionAvailable := true;
  encryptString := fun s => Some (ks_prefix ++ s);
  decryptString := toy_decrypt |}.

Definition keystore_down : SafeStorage := {|
  isEncryptionAvailable := false;
  encryptString := fun _ => None;
  decryptString := fun _ => None |}.

(** Concrete disks.  The legacy file holds the settings object with an
    extra key, as an older version wrote it with JSON.stringify. *)
Definition sample_settings : json :=
  JObj [("startMinimized", JBool true); ("windowWidth", JNum 1200)].

Definition legacy_disk : disk :=
  <[legacySettingsPath := stringify sample_settings]> ∅.



(* ------------------------------------------------------------------ *)
(** ** Host and URL checks of main.js

    The handlers receive [new URL(...).hostname] or the URL string
    itself; URL parsing is not modelled, the hostname is an input. *)

(** [s.endsWith(suffix)] *)
Definition ends_with (s suffix : string) : bool :=
  Nat.leb (String.length suffix) (String.length s)
  && String.eqb (substring (String.length s - String.length suffix)
                           (String.length suffix) s) suffix.

(** [s.includes(x)] *)
Definition includes (s x : string) : bool :=
  match String.index 0 x s with Some _ => true | None => false end.

(** configureSecureSession, onBeforeRequest (lines 146-165). *)
Definition allowedDomains : list string :=
  ["google.com"; "googleapis.com"; "gstatic.com"; "googleusercontent.com";
   "google-analytics.com"; "doubleclick.net"; "youtube.com"; "ytimg.com";
   "ggpht.com"].

Definition isAllowed (hostname : string) : bool :=
  existsb (fun domain => String.eqb hostname domain
                         || ends_with hostname ("." ++ domain)) allowedDomains.

(** The [cancel] field passed to the callback. *)
Definition request_cancel (hostname : string) : bool := negb (isAllowed hostname).

(** The certificate-error handler (lines 624-635): [true] where it calls
    [callback(true)] and accepts the certificate. *)
Definition certificate_trusted (hostname : string) : bool :=
  ends_with hostname "google.com" || ends_with hostname "googleapis.com"
  || ends_with hostname "gstatic.com".

(** will-navigate of every web contents (web-contents-created, lines
    603-610): [true] where it calls [event.preventDefault()]. *)
Definition allowedHosts : list string := ["gemini.google.com"; "accounts.google.com"].

Definition contents_navigation_prevented (hostname : string) : bool :=
  negb (existsb (fun host => includes hostname host) allowedHosts).

(** The answer of a window-open handler: [{ action: 'allow' }], or
    [shell.openExternal(url)] followed by [{ action: 'deny' }]. *)
Inductive window_open_result : Type :=
| WindowAllow
| WindowDenyOpenExternal (url : string).

(** setWindowOpenHandler of every web contents (lines 613-620). *)
Definition contents_window_open (url hostname : string) : window_open_result :=
  if includes hostname "accounts.google.com" then WindowAllow
  else WindowDenyOpenExternal url.

(** setWindowOpenHandler of the main window (createWindow, lines
    523-533), on the whole URL string.  It replaces the handler the
    web-contents-created listener installed first. *)
Definition main_window_open (url : string) : window_open_result :=
  if includes url "accounts.google.com" || includes url "gemini.google.com"
     || includes url "google.com/accounts"
  then WindowAllow else WindowDenyOpenExternal url.

(** will-navigate of the main window (createWindow, lines 536-544):
    [Some url] where it calls [event.preventDefault()] and
    [shell.openExternal(url)]. *)
Definition main_will_navigate (url : string) : option string :=
  if negb (includes url "gemini.google.com") && negb (includes url "accounts.google.com")
     && negb (includes url "google.com/accounts")
  then Some url else None.

(** A navigation of the main window runs both will-navigate listeners:
    the one of web-contents-created (the contents are created with the
    BrowserWindow) and the one of createWindow.  The result is whether
    the navigation is prevented, and the URL opened in the browser. *)
Definition main_window_navigation (url hostname : string) : bool * option string :=
  let prevented := contents_navigation_prevented hostname in
  match main_will_navigate url with
  | Some u => (true, Some u)
  | None => (prevented, None)
  end.

(* ------------------------------------------------------------------ *)
(** ** Settings flags, auto-launch, tray menu and window events *)

(** [if (settings.key)]: a missing key is [undefined], which is falsy. *)
Definition setting_flag (settings : obj) (key : string) : bool :=
  match obj_get settings key with Some v => truthy v | None => false end.

(** The argument of [app.setLoginItemSettings]. *)
Record LoginItemSettings : Type := {
  openAtLogin : option json;
  path : string;
  args : list string
}.

Definition loginSettings_of (exe : string) (settings : obj) : LoginItemSettings := {|
  openAtLogin := obj_get settings "startAtLogin";
  path := exe;
  args := if setting_flag settings "startMinimized" then ["--hidden"] else [] |}.

(** [path.join(app.getPath('home'), '.config', 'autostart')] and the
    desktop file inside it. *)
Definition autostartDir (home : string) : string := home ++ "/.config/autostart".

Definition desktopFile (home : string) : string :=
  autostartDir home ++ "/gemini-desktop.desktop".

(** The template literal [desktopContent]. *)
Definition desktopContent (exe icon : string) (startMinimized : bool) : string :=
  "[Desktop Entry]" ++ nl ++
  "Type=Application" ++ nl ++
  "Name=Gemini Desktop" ++ nl ++
  "Exec=" ++ dq ++ exe ++ dq ++ (if startMinimized then " --hidden" else "") ++ nl ++
  "Icon=" ++ icon ++ nl ++
  "Comment=Standalone desktop app for Google Gemini" ++ nl ++
  "Categories=Network;Chat;Utility;" ++ nl ++
  "Terminal=false" ++ nl ++
  "StartupWMClass=Gemini Desktop" ++ nl ++
  "X-GNOME-Autostart-enabled=true" ++ nl.

Section AutoLaunch.
Context (unwritable : gset string).

(** [fs.mkdirSync(dir, { recursive: true })].  The disk holds files
    only; creating a directory changes nothing on it and is refused
    where the path is. *)
Definition mkdirSync (p : string) : M unit := fun d =>
  if bool_decide (p ∈ unwritable) then (Exn EACCES, d) else (Ok tt, d).

(** updateAutoLaunch (main.js lines 293-343) for the given platform,
    home directory, executable path and [__dirname].  The result is the
    value handed to [app.setLoginItemSettings]. *)
Definition updateAutoLaunch (platform home exe appDir : string) (settings : obj)
    : M LoginItemSettings :=
  let loginSettings := loginSettings_of exe settings in
  (if String.eqb platform "linux" && setting_flag settings "startAtLogin" then
     try_catch
       (exists_dir <- existsSync (autostartDir home);
        (if exists_dir then mret tt else mkdirSync (autostartDir home)) ;;
        writeFileSync unwritable (desktopFile home)
          (desktopContent exe (appDir ++ "/assets/icon.png")
             (setting_flag settings "startMinimized")))
       (fun _ => mret tt)
   else if String.eqb platform "linux" && negb (setting_flag settings "startAtLogin") then
     try_catch
       (exists_file <- existsSync (desktopFile home);
        if exists_file then unlinkSync unwritable (desktopFile home) else mret tt)
       (fun _ => mret tt)
   else mret tt) ;;
  mret loginSettings.

End AutoLaunch.

Section Tray.
Context (ss : SafeStorage) (unwritable : gset string).

(** The click handler of a checkbox of the tray menu (updateTrayMenu,
    lines 252-278): [settings.key = menuItem.checked;
    saveSettings(settings)], with the result of the save not inspected.
    The value is the in-memory settings object after the click. *)
Definition tray_toggle (key : string) (checked : bool) (settings : obj) : M obj :=
  let settings' := obj_set settings key (JBool checked) in
  saveSettings ss unwritable settings' ;;
  mret settings'.

(** 'Start with System' also calls updateAutoLaunch. *)
Definition tray_click_startAtLogin (platform home exe appDir : string) (checked : bool)
    (settings : obj) : M (obj * LoginItemSettings) :=
  settings' <- tray_toggle "startAtLogin" checked settings;
  login <- updateAutoLaunch unwritable platform home exe appDir settings';
  mret (settings', login).

Definition tray_click_startMinimized : bool -> obj -> M obj :=
  tray_toggle "startMinimized".

Definition tray_click_minimizeToTray : bool -> obj -> M obj :=
  tray_toggle "minimizeToTray".

End Tray.





(* ------------------------------------------------------------------ *)
(** ** createIco of generate-icons.js (lines 11-47)

    A node Buffer is its list of bytes.  The buffer methods throw a
    RangeError on a value or an offset out of range: they return [None]
    there, and so does createIco. *)

Abbreviation buffer := (list Z).

Section Icons.
Open Scope Z_scope.
Open Scope list_scope.

(** [Buffer.alloc(size)] *)
Definition buf_alloc (size : nat) : buffer := replicate size 0.

Fixpoint le_bytes (value : Z) (w : nat) : list Z :=
  match w with
  | O => []
  | S w' => value mod 256 :: le_bytes (value / 256) w'
  end.

(** [buf.writeUIntLE(value, offset, w)]: the value must lie in
    [0, 2^(8w)) and the [w] bytes inside the buffer. *)
Definition write_le (w : nat) (buf : buffer) (value : Z) (offset : nat) : option buffer :=
  if (0 <=? value) && (value <? 256 ^ Z.of_nat w) && Nat.leb (offset + w) (length buf)
  then Some (list_inserts offset (le_bytes value w) buf)
  else None.

Definition writeUInt8 := write_le 1.
Definition writeUInt16LE := write_le 2.
Definition writeUInt32LE := write_le 4.

Fixpoint read_le (l : list Z) : Z :=
  match l with [] => 0 | b :: l' => b + 256 * read_le l' end.

Definition read_be (l : list Z) : Z := fold_left (fun acc b => acc * 256 + b) l 0.

(** [buf.readUInt32BE(offset)] and [buf.readUInt32LE(offset)]. *)
Definition readUInt32BE (buf : buffer) (offset : nat) : option Z :=
  if Nat.leb (offset + 4) (length buf) then Some (read_be (take 4 (drop offset buf)))
  else None.

Definition readUInt32LE (buf : buffer) (offset : nat) : option Z :=
  if Nat.leb (offset + 4) (length buf) then Some (read_le (take 4 (drop offset buf)))
  else None.

(** The body of the for loop for one image: its directory entry. *)
Definition ico_entry (png : buffer) (dataOffset : Z) : option buffer :=
  width ← readUInt32BE png 16;
  height ← readUInt32BE png 20;
  let entry := buf_alloc 16 in
  entry ← writeUInt8 entry (if 256 <=? width then 0 else width) 0;
  entry ← writeUInt8 entry (if 256 <=? height then 0 else height) 1;
  entry ← writeUInt8 entry 0 2;
  entry ← writeUInt8 entry 0 3;
  entry ← writeUInt16LE entry 1 4;
  entry ← writeUInt16LE entry 32 6;
  entry ← writeUInt32LE entry (Z.of_nat (length png)) 8;
  writeUInt32LE entry dataOffset 12.

(** The for loop: [dataOffset += png.length] after each image. *)
Fixpoint ico_entries (pngBuffers : list buffer) (dataOffset : Z) : option (list buffer) :=
  match pngBuffers with
  | [] => Some []
  | png :: rest =>
      entry ← ico_entry png dataOffset;
      entries ← ico_entries rest (dataOffset + Z.of_nat (length png));
      Some (entry :: entries)
  end.

Definition createIco (pngBuffers : list buffer) : option buffer :=
  let header := buf_alloc 6 in
  header ← writeUInt16LE header 0 0;
  header ← writeUInt16LE header 1 2;
  header ← writeUInt16LE header (Z.of_nat (length pngBuffers)) 4;
  let dirEntrySize := 16 in
  let dataOffset := 6 + Z.of_nat (length pngBuffers) * dirEntrySize in
  dirEntries ← ico_entries pngBuffers dataOffset;
  Some (header ++ concat dirEntries ++ concat pngBuffers).

(** The directory entry createIco builds for an image. *)
Definition dir_entry (width height size offset : Z) : buffer :=
  [if 256 <=? width then 0 else width; if 256 <=? height then 0 else height;
   0; 0; 1; 0; 32; 0] ++ le_bytes size 4 ++ le_bytes offset 4.

(** Sample images for concrete runs: the PNG signature and the IHDR
    chunk of a 16x16 and of a 512x512 RGBA image. *)
Definition png16 : buffer :=
  [137; 80; 78; 71; 13; 10; 26; 10; 0; 0; 0; 13; 73; 72; 68; 82;
   0; 0; 0; 16; 0; 0; 0; 16; 8; 6; 0; 0; 0].

Definition png512 : buffer :=
  [137; 80; 78; 71; 13; 10; 26; 10; 0; 0; 0; 13; 73; 72; 68; 82;
   0; 0; 2; 0; 0; 0; 2; 0; 8; 6; 0; 0; 0].

Definition sample_ico : buffer :=
  Eval vm_compute in from_option id [] (createIco [png16; png512]).

End Icons.

(** Paths of a concrete Linux installation. *)
Definition deck_home : string := "/home/deck".
Definition deck_exe : string := "/opt/gemini-desktop/gemini-desktop".
Definition deck_appDir : string := "/opt/gemini-desktop/resources/app/src".

(* ------------------------------------------------------------------ *)
(** ** Running the primitives *)

Lemma legacy_path_of_settings :
  js_replace settingsPath ".enc" ".json" = legacySettingsPath.
Proof. reflexivity. Qed.

Lemma paths_differ : settingsPath <> legacySettingsPath.
Proof. discriminate. Qed.


Lemma existsSync_run (d : disk) p :
  existsSync p d = (Ok (bool_decide (is_Some (d !! p))), d).
Proof. reflexivity. Qed.

Lemma existsSync_absent (d : disk) p :
  d !! p = None -> existsSync p d = (Ok false, d).
Proof. intros H. unfold existsSync. rewrite H. reflexivity. Qed.

Lemma existsSync_present (d : disk) p c :
  d !! p = Some c -> existsSync p d = (Ok true, d).
Proof. intros H. unfold existsSync. rewrite H. reflexivity. Qed.

(** ** Object properties *)

Lemma obj_get_set (o : obj) k v k' :
  obj_get (obj_set o k v) k' = if String.eqb k' k then Some v else obj_get o k'.
Proof.
  induction o as [|[k0 v0] o IH]; cbn; [reflexivity|].
  destruct (String.eqb k k0) eqn:E0.
  - apply String.eqb_eq in E0. subst k0. cbn. destruct (String.eqb k' k); reflexivity.
  - cbn. destruct (String.eqb k' k0) eqn:E1; [|exact IH].
    apply String.eqb_eq in E1. subst k0.
    destruct (String.eqb k' k) eqn:E2; [|reflexivity].
    apply String.eqb_eq in E2. subst k'. rewrite String.eqb_refl in E0. discriminate.
Qed.




Definition set_all (l : obj) (t : obj) : obj :=
  fold_left (fun acc kv => obj_set acc kv.1 kv.2) l t.



Lemma spread_is_set_all (t : obj) (o : obj) : spread t (JObj o) = set_all o t.
Proof. reflexivity. Qed.




Ltac unfold_store :=
  unfold secureStore_load, secureStore_delete, try_catch, bindM, mbind, M_bind,
    mret, M_ret, of_option, throw, readFileSync, writeFileSync, unlinkSync, existsSync.

Ltac red_store :=
  cbn -[js_replace settingsPath legacySettingsPath stringify parse secureStore_save].

(** Rewrite with the equations in the context wherever their left side
    shows up, and reduce again. *)
Ltac rw_hyps :=
  repeat match goal with
         | H : ?a = ?b |- context [?a] => rewrite H
         end.

Ltac crunch :=
  repeat progress (red_store; rewrite ?legacy_path_of_settings; rw_hyps).

Section Proofs.
Context (ss : SafeStorage) (U : gset string).

Lemma loadSettings_run (d : disk) :
  loadSettings ss U d =
    match secureStore_load ss U settingsPath JNull d with
    | (Ok l, d') => (Ok (merge_loaded l), d')
    | (Exn e, d') => (Exn e, d')
    end.
Proof. reflexivity. Qed.

Lemma loadSettings_of (d d' : disk) (l : json) :
  secureStore_load ss U settingsPath JNull d = (Ok l, d') ->
  loadSettings ss U d = (Ok (merge_loaded l), d').
Proof. intros H. rewrite loadSettings_run, H. reflexivity. Qed.


(** The fallback save: the plain text goes to [filePath + '.json']. *)
Lemma save_plain (d : disk) filePath v :
  isEncryptionAvailable ss = false ->
  filePath +:+ ".json" ∉ U ->
  secureStore_save ss U filePath v d =
    (Ok true, <[filePath +:+ ".json" := stringify v]> d).
Proof.
  intros Ha Hw. unfold secureStore_save, try_catch, bindM, mbind, M_bind, mret,
    M_ret, writeFileSync. rewrite Ha. cbn.
  rewrite bool_decide_eq_false_2 by exact Hw. reflexivity.
Qed.

(** A refused write makes save report [false] and leaves the disk as it was. *)
Lemma save_refused (d : disk) filePath v :
  isEncryptionAvailable ss = true ->
  (encryptString ss (stringify v) = None \/ filePath ∈ U) ->
  secureStore_save ss U filePath v d = (Ok false, d).
Proof.
  intros Ha Hf. unfold secureStore_save, try_catch, bindM, mbind, M_bind, mret,
    M_ret, of_option, throw, writeFileSync. rewrite Ha. cbn.
  destruct (encryptString ss (stringify v)) as [blob|]; cbn; [|reflexivity].
  destruct Hf as [Hf|Hf]; [discriminate|].
  rewrite bool_decide_eq_true_2 by exact Hf. reflexivity.
Qed.

Lemma load_neither (d : disk) :
  d !! settingsPath = None -> d !! legacySettingsPath = None ->
  secureStore_load ss U settingsPath JNull d = (Ok JNull, d).
Proof.
  intros H1 H2. unfold_store. red_store. rewrite H1. red_store.
  rewrite legacy_path_of_settings, H2. reflexivity.
Qed.







(** delete touches no path other than the current and the legacy one. *)
Lemma delete_frame (d : disk) p :
  p <> settingsPath -> p <> legacySettingsPath ->
  (secureStore_delete U settingsPath d).2 !! p = d !! p.
Proof.
  intros Hp1 Hp2. unfold_store.
  destruct (d !! settingsPath) eqn:H1; destruct (d !! legacySettingsPath) eqn:H2;
    crunch;
    repeat (case_bool_decide; crunch;
            rewrite ?lookup_delete_ne by exact paths_differ; rw_hyps; cbn);
    rewrite ?lookup_delete_ne by congruence; reflexivity.
Qed.

(** ** Claims *)

(** C6.  First run: when neither the current path (settings.enc) nor the
    legacy path (settings.json) exists, loadSettings returns exactly
    defaultSettings and leaves the disk as it was. *)
Theorem first_run_defaults (d : disk) :
  d !! settingsPath = None -> d !! legacySettingsPath = None ->
  loadSettings ss U d = (Ok defaultSettings, d)
  /\ defaultSettings = [("startMinimized", JBool false);
                        ("minimizeToTray", JBool true);
                        ("startAtLogin", JBool false)].
Proof.
  intros H1 H2. split; [|reflexivity].
  rewrite (loadSettings_of d d JNull (load_neither d H1 H2)). reflexivity.
Qed.

(** C10.  A falsy value returned by the store (null, false, 0, the empty
    string), returned without error, is discarded by loadSettings, which
    returns exactly defaultSettings. *)
Theorem falsy_loaded_discarded (d d' : disk) (v : json) :
  secureStore_load ss U settingsPath JNull d = (Ok v, d') ->
  truthy v = false ->
  loadSettings ss U d = (Ok defaultSettings, d').
Proof.
  intros H Hf. rewrite (loadSettings_of d d' v H). unfold merge_loaded.
  rewrite Hf. reflexivity.
Qed.





Lemma fallback_path : settingsPath +:+ ".json" = "settings.enc.json".
Proof. reflexivity. Qed.

(** C9.  After a save without encryption, which writes the plain text to
    settings.enc.json, delete leaves that file in place: it only unlinks
    settings.enc and settings.json. *)
Theorem delete_keeps_fallback_file (d : disk) (v : json) :
  isEncryptionAvailable ss = false -> "settings.enc.json" ∉ U ->
  let d1 := (secureStore_save ss U settingsPath v d).2 in
  d1 !! "settings.enc.json" = Some (stringify v)
  /\ (secureStore_delete U settingsPath d1).2 !! "settings.enc.json" = Some (stringify v)
  /\ (forall p, p <> settingsPath -> p <> legacySettingsPath ->
      (secureStore_delete U settingsPath d1).2 !! p = d1 !! p).
Proof.
  intros Ha Hw d1.
  assert (E : d1 !! "settings.enc.json" = Some (stringify v)).
  { unfold d1. rewrite <- fallback_path in *. rewrite (save_plain d settingsPath v Ha Hw).
    apply lookup_insert_eq. }
  split; [exact E|]. split; [|intros p; apply delete_frame].
  rewrite delete_frame by discriminate. exact E.
Qed.


End Proofs.

(* ------------------------------------------------------------------ *)
(** ** Strings: endsWith and includes *)

Lemma str_length_app (s t : string) : String.length (s ++ t) = String.length s + String.length t.
Proof. induction s as [|c s IH]; simpl; [reflexivity|]. rewrite IH. reflexivity. Qed.

Lemma substring_app_l (p s : string) m :
  substring (String.length p) m (p ++ s) = substring 0 m s.
Proof. induction p as [|c p IH]; simpl; [reflexivity|exact IH]. Qed.

Lemma substring_prefix (s q : string) :
  substring 0 (String.length s) (s ++ q) = s.
Proof.
  induction s as [|c s IH]; simpl; [destruct q; reflexivity|]. rewrite IH. reflexivity.
Qed.

Lemma substring_whole (s : string) : substring 0 (String.length s) s = s.
Proof. induction s as [|c s IH]; simpl; [reflexivity|]. rewrite IH. reflexivity. Qed.

Lemma str_app_cons c (s t : string) : String c s ++ t = String c (s ++ t).
Proof. reflexivity. Qed.

Lemma substring_split (s : string) k :
  k <= String.length s ->
  s = substring 0 k s ++ substring k (String.length s - k) s.
Proof.
  revert k. induction s as [|c s IH]; intros k Hk; simpl in *.
  - destruct k; reflexivity.
  - destruct k as [|k]; simpl.
    + rewrite substring_whole. reflexivity.
    + rewrite str_app_cons. f_equal. apply IH. lia.
Qed.

Lemma ends_with_spec (s suffix : string) :
  ends_with s suffix = true <-> exists p, s = p ++ suffix.
Proof.
  unfold ends_with. split.
  - intros H. apply andb_prop in H as [H1 H2].
    apply Nat.leb_le in H1. apply String.eqb_eq in H2.
    exists (substring 0 (String.length s - String.length suffix) s).
    rewrite (substring_split s (String.length s - String.length suffix)) at 1 by lia.
    replace (String.length s - (String.length s - String.length suffix))
      with (String.length suffix) by lia.
    rewrite H2. reflexivity.
  - intros [p ->]. rewrite str_length_app.
    replace (String.length p + String.length suffix - String.length suffix)
      with (String.length p) by lia.
    rewrite substring_app_l, substring_whole.
    apply andb_true_intro. split; [apply Nat.leb_le; lia|apply String.eqb_refl].
Qed.

Lemma includes_app (p x q : string) : includes (p ++ x ++ q) x = true.
Proof.
  unfold includes. destruct (String.index 0 x (p ++ x ++ q)) eqn:E; [reflexivity|].
  destruct x as [|c x']; [destruct (p ++ "" ++ q); discriminate|].
  exfalso. apply (index_correct3 0 (String.length p) _ _ E); [discriminate|lia|].
  rewrite substring_app_l, substring_prefix. reflexivity.
Qed.

Lemma str_app_assoc (s t u : string) : s ++ (t ++ u) = (s ++ t) ++ u.
Proof. induction s as [|c s IH]; [reflexivity|]. rewrite !str_app_cons, IH. reflexivity. Qed.

Lemma isAllowed_spec (hostname : string) :
  isAllowed hostname = true <->
  exists domain, domain ∈ allowedDomains /\
    (hostname = domain \/ exists p, hostname = p ++ "." ++ domain).
Proof.
  unfold isAllowed. rewrite existsb_exists. split.
  - intros (d & Hin & Hd). exists d. split; [apply list_elem_of_In; exact Hin|].
    apply orb_true_iff in Hd as [Hd|Hd].
    + left. apply String.eqb_eq. exact Hd.
    + right. apply ends_with_spec. exact Hd.
  - intros (d & Hin & Hd). exists d. split; [apply list_elem_of_In; exact Hin|].
    apply orb_true_iff. destruct Hd as [Hd|Hd].
    + left. apply String.eqb_eq. exact Hd.
    + right. apply ends_with_spec. exact Hd.
Qed.

(** X1.  The request filter of configureSecureSession lets a request
    through exactly when its hostname is one of allowedDomains or ends
    with a dot followed by one of them; so every subdomain of an allowed
    hostname is allowed too. *)
Theorem request_filter_domain_families (hostname label : string) :
  (request_cancel hostname = false <->
   exists domain, domain ∈ allowedDomains /\
     (hostname = domain \/ exists p, hostname = p ++ "." ++ domain))
  /\ (request_cancel hostname = false -> request_cancel (label ++ "." ++ hostname) = false).
Proof.
  unfold request_cancel. rewrite !negb_false_iff. split; [apply isAllowed_spec|].
  rewrite !isAllowed_spec. intros (d & Hin & Hd). exists d. split; [exact Hin|].
  right. destruct Hd as [->|(p & ->)].
  - exists label. reflexivity.
  - exists (label ++ "." ++ p). rewrite <- !str_app_assoc. reflexivity.
Qed.

Lemma certificate_trusted_spec (hostname : string) :
  certificate_trusted hostname = true <->
  exists p, hostname = p ++ "google.com" \/ hostname = p ++ "googleapis.com"
            \/ hostname = p ++ "gstatic.com".
Proof.
  unfold certificate_trusted. rewrite !orb_true_iff, !ends_with_spec. split.
  - intros [[(p & H)|(p & H)]|(p & H)]; exists p; tauto.
  - intros (p & [H|[H|H]]); [left; left|left; right|right]; exists p; exact H.
Qed.

(** X2.  The certificate-error handler accepts exactly the hostnames
    that end with google.com, googleapis.com or gstatic.com, with no dot
    required before the suffix: evilgoogle.com gets its certificate
    accepted although the request filter cancels its requests. *)
Theorem certificate_suffix_only (hostname : string) :
  (certificate_trusted hostname = true <->
   exists p, hostname = p ++ "google.com" \/ hostname = p ++ "googleapis.com"
             \/ hostname = p ++ "gstatic.com")
  /\ certificate_trusted "evilgoogle.com" = true
  /\ request_cancel "evilgoogle.com" = true.
Proof. split; [apply certificate_trusted_spec|]. split; reflexivity. Qed.

(** X3.  The handlers installed on every web contents test the hostname
    with includes: a hostname that contains gemini.google.com or
    accounts.google.com anywhere may be navigated to, and one that
    contains accounts.google.com may open a window. *)
Theorem contents_handlers_substring (p q url : string) :
  contents_navigation_prevented (p ++ "gemini.google.com" ++ q) = false
  /\ contents_navigation_prevented (p ++ "accounts.google.com" ++ q) = false
  /\ contents_window_open url (p ++ "accounts.google.com" ++ q) = WindowAllow.
Proof.
  unfold contents_navigation_prevented, contents_window_open. cbn [existsb allowedHosts].
  rewrite !includes_app, ?orb_true_r. split; [reflexivity|]. split; reflexivity.
Qed.

(** X4.  The two URL checks of the main window agree: a URL may open a
    window exactly when a navigation to it is let through, and it is
    opened in the browser by one exactly when it is by the other. *)
Theorem main_window_handlers_agree (url : string) :
  (main_window_open url = WindowAllow <-> main_will_navigate url = None)
  /\ (main_window_open url = WindowDenyOpenExternal url <-> main_will_navigate url = Some url).
Proof.
  unfold main_window_open, main_will_navigate.
  destruct (includes url "accounts.google.com"), (includes url "gemini.google.com"),
    (includes url "google.com/accounts"); cbn; split; split; congruence.
Qed.


(** X6.  A link of the main window whose URL mentions gemini.google.com
    but whose hostname is not allowed is blocked by the web-contents
    listener while the main-window listener does not open it in the
    browser: the click does nothing. *)
Theorem main_window_link_dead_end (p q hostname : string) :
  contents_navigation_prevented hostname = true ->
  main_window_navigation (p ++ "gemini.google.com" ++ q) hostname = (true, None).
Proof.
  intros H. unfold main_window_navigation, main_will_navigate.
  rewrite includes_app. cbn. rewrite H. reflexivity.
Qed.

(* ------------------------------------------------------------------ *)
(** ** updateAutoLaunch *)


Ltac unfold_auto :=
  unfold updateAutoLaunch, try_catch, bindM, mbind, M_bind, mret, M_ret,
    mkdirSync, writeFileSync, unlinkSync, existsSync.


(** X8.  On Linux, with the desktop file writable, updateAutoLaunch
    writes the autostart desktop file (its Exec line carries --hidden
    exactly when startMinimized is truthy) when startAtLogin is truthy
    and its directory can be created, and removes the file, or leaves it
    absent, when startAtLogin is falsy. *)
Theorem updateAutoLaunch_linux_entry (U : gset string) home exe appDir
    (settings : obj) (d : disk) :
  desktopFile home ∉ U ->
  (setting_flag settings "startAtLogin" = true -> autostartDir home ∉ U ->
   updateAutoLaunch U "linux" home exe appDir settings d
   = (Ok (loginSettings_of exe settings),
      <[desktopFile home := desktopContent exe (appDir ++ "/assets/icon.png")
                              (setting_flag settings "startMinimized")]> d))
  /\ (setting_flag settings "startAtLogin" = false ->
      updateAutoLaunch U "linux" home exe appDir settings d
      = (Ok (loginSettings_of exe settings), delete (desktopFile home) d)).
Proof.
  intros Hf. split.
  - intros Hs Hdir. unfold_auto. rewrite Hs. cbn.
    rewrite (bool_decide_eq_false_2 (desktopFile home ∈ U)) by exact Hf.
    rewrite (bool_decide_eq_false_2 (autostartDir home ∈ U)) by exact Hdir.
    case_bool_decide; reflexivity.
  - intros Hs. unfold_auto. rewrite Hs. cbn.
    destruct (d !! desktopFile home) eqn:E; cbn.
    + rewrite E. rewrite bool_decide_eq_false_2 by exact Hf. reflexivity.
    + rewrite delete_id by exact E. reflexivity.
Qed.

(* ------------------------------------------------------------------ *)
(** ** The store, the tray menu and the window events *)

Section Extras.
Context (ss : SafeStorage) (U : gset string).

(** X9.  secureStore.save never throws and writes at most one file: the
    encrypted text at filePath when encryption is available, the plain
    JSON text at filePath + '.json' otherwise; when it returns false the
    disk is unchanged. *)
Theorem secureStore_save_writes_one_file (d : disk) filePath v :
  let target := if isEncryptionAvailable ss then filePath else filePath ++ ".json" in
  secureStore_save ss U filePath v d = (Ok false, d)
  \/ exists c, secureStore_save ss U filePath v d = (Ok true, <[target := c]> d)
       /\ (if isEncryptionAvailable ss then encryptString ss (stringify v) = Some c
           else c = stringify v).
Proof.
  intros target. unfold target, secureStore_save, try_catch, bindM, mbind, M_bind, mret,
    M_ret, of_option, throw, writeFileSync.
  destruct (isEncryptionAvailable ss); cbn.
  - destruct (encryptString ss (stringify v)) as [c|] eqn:E; cbn; [|left; reflexivity].
    case_bool_decide; cbn; [left; reflexivity|].
    right. exists c. split; reflexivity.
  - case_bool_decide; cbn; [left; reflexivity|].
    right. exists (stringify v). split; reflexivity.
Qed.

Lemma save_cases (d : disk) filePath v :
  (secureStore_save ss U filePath v d = (Ok false, d))
  \/ exists c, secureStore_save ss U filePath v d =
       (Ok true, <[(if isEncryptionAvailable ss then filePath else filePath ++ ".json") := c]> d).
Proof.
  destruct (secureStore_save_writes_one_file d filePath v) as [H|(c & H & _)];
    [left; exact H|right; exists c; exact H].
Qed.




Lemma setting_flag_set (settings : obj) key b k :
  setting_flag (obj_set settings key (JBool b)) k =
    if String.eqb k key then b else setting_flag settings k.
Proof. unfold setting_flag. rewrite obj_get_set. destruct (String.eqb k key); reflexivity. Qed.

Lemma tray_toggle_run (settings : obj) key b (d : disk) :
  tray_toggle ss U key b settings d =
    (Ok (obj_set settings key (JBool b)),
     (saveSettings ss U (obj_set settings key (JBool b)) d).2).
Proof.
  unfold tray_toggle, saveSettings.
  destruct (save_cases d settingsPath (JObj (obj_set settings key (JBool b)))) as [Hs|(c & Hs)];
    unfold mbind, M_bind, mret, M_ret; rewrite Hs; reflexivity.
Qed.




(** X14.  On Linux, clicking Start with System saves the settings, then
    writes the autostart desktop file when checked and removes it when
    unchecked, and registers the login item with openAtLogin equal to the
    checkbox. *)
Theorem tray_start_at_login_linux (settings : obj) home exe appDir b (d : disk) :
  desktopFile home ∉ U -> autostartDir home ∉ U ->
  let settings' := obj_set settings "startAtLogin" (JBool b) in
  let d1 := (saveSettings ss U settings' d).2 in
  tray_click_startAtLogin ss U "linux" home exe appDir b settings d
  = (Ok (settings', loginSettings_of exe settings'),
     if b then <[desktopFile home := desktopContent exe (appDir ++ "/assets/icon.png")
                                       (setting_flag settings "startMinimized")]> d1
     else delete (desktopFile home) d1)
  /\ openAtLogin (loginSettings_of exe settings') = Some (JBool b).
Proof.
  intros Hf Hdir settings' d1.
  assert (Hs : setting_flag settings' "startAtLogin" = b).
  { unfold settings'. rewrite setting_flag_set. reflexivity. }
  assert (Hm : setting_flag settings' "startMinimized" = setting_flag settings "startMinimized").
  { unfold settings'. rewrite setting_flag_set. reflexivity. }
  split.
  - unfold tray_click_startAtLogin, bindM, mbind, M_bind.
    rewrite tray_toggle_run. fold settings'. fold d1.
    destruct (updateAutoLaunch_linux_entry U home exe appDir settings' d1 Hf) as [Hon Hoff].
    destruct b.
    + rewrite (Hon Hs Hdir), Hm. reflexivity.
    + rewrite (Hoff Hs). reflexivity.
  - unfold settings'. cbn. rewrite obj_get_set. reflexivity.
Qed.

End Extras.

(* ------------------------------------------------------------------ *)
(** ** createIco *)

Section IconProofs.
Open Scope Z_scope.
Open Scope list_scope.

Lemma length_le_bytes v w : length (le_bytes v w) = w.
Proof. revert v. induction w as [|w IH]; intros v; cbn; [reflexivity|]. rewrite IH. reflexivity. Qed.

Lemma read_le_le_bytes w v : 0 <= v < 256 ^ Z.of_nat w -> read_le (le_bytes v w) = v.
Proof.
  revert v. induction w as [|w IH]; intros v Hv; cbn.
  - cbn in Hv. lia.
  - rewrite IH.
    + pose proof (Z.div_mod v 256 ltac:(lia)). lia.
    + rewrite Nat2Z.inj_succ, Z.pow_succ_r in Hv by lia. split.
      * apply Z.div_pos; lia.
      * apply Z.div_lt_upper_bound; lia.
Qed.

Lemma write_le_inv w buf value offset buf' :
  write_le w buf value offset = Some buf' ->
  0 <= value < 256 ^ Z.of_nat w /\ (offset + w <= length buf)%nat
  /\ buf' = list_inserts offset (le_bytes value w) buf.
Proof.
  unfold write_le. destruct (0 <=? value) eqn:E1, (value <? 256 ^ Z.of_nat w) eqn:E2,
    (Nat.leb (offset + w) (length buf)) eqn:E3; cbn; try discriminate.
  intros [= <-]. apply Z.leb_le in E1. apply Z.ltb_lt in E2. apply Nat.leb_le in E3.
  split; [lia|]. split; [exact E3|reflexivity].
Qed.

Lemma write_le_run w buf value offset :
  0 <= value < 256 ^ Z.of_nat w -> (offset + w <= length buf)%nat ->
  write_le w buf value offset = Some (list_inserts offset (le_bytes value w) buf).
Proof.
  intros Hv Ho. unfold write_le.
  rewrite (proj2 (Z.leb_le 0 value)) by lia. rewrite (proj2 (Z.ltb_lt _ _)) by lia.
  rewrite (proj2 (Nat.leb_le _ _)) by exact Ho. reflexivity.
Qed.

Lemma clamp_range x : 0 <= x -> 0 <= (if 256 <=? x then 0 else x) < 256.
Proof. intros H. destruct (256 <=? x) eqn:E; [lia|apply Z.leb_gt in E; lia]. Qed.

Lemma ico_entry_inv png off e :
  ico_entry png off = Some e ->
  exists width height, readUInt32BE png 16 = Some width /\ readUInt32BE png 20 = Some height
  /\ 0 <= off < 2 ^ 32 /\ Z.of_nat (length png) < 2 ^ 32
  /\ e = dir_entry width height (Z.of_nat (length png)) off.
Proof.
  unfold ico_entry, writeUInt8, writeUInt16LE, writeUInt32LE. intros H.
  repeat match type of H with
         | _ ≫= _ = Some _ => apply bind_Some in H as (? & ? & H)
         end.
  match goal with
  | H16 : readUInt32BE png 16 = Some ?w, H20 : readUInt32BE png 20 = Some ?h |- _ =>
      exists w, h; split; [exact H16|]; split; [exact H20|]
  end.
  repeat match goal with
         | Hw : write_le _ _ _ _ = Some _ |- _ => apply write_le_inv in Hw as (? & ? & ->)
         end.
  cbn in *. split; [lia|]. split; [lia|].
  unfold dir_entry. cbn.
  rewrite !Z.mod_small by lia. reflexivity.
Qed.

Lemma length_dir_entry width height size offset :
  length (dir_entry width height size offset) = 16%nat.
Proof. unfold dir_entry. rewrite !length_app, !length_le_bytes. reflexivity. Qed.

Lemma ico_entries_inv pngs off es :
  ico_entries pngs off = Some es ->
  length es = length pngs /\ Forall (fun e => length e = 16%nat) es
  /\ forall i png, pngs !! i = Some png ->
     exists width height e, es !! i = Some e
       /\ readUInt32BE png 16 = Some width /\ readUInt32BE png 20 = Some height
       /\ 0 <= off + Z.of_nat (length (concat (take i pngs))) < 2 ^ 32
       /\ Z.of_nat (length png) < 2 ^ 32
       /\ e = dir_entry width height (Z.of_nat (length png))
                        (off + Z.of_nat (length (concat (take i pngs)))).
Proof.
  revert off es. induction pngs as [|png rest IH]; intros off es H; cbn in H.
  - injection H as <-. split; [reflexivity|]. split; [constructor|].
    intros i png Hi. rewrite lookup_nil in Hi. discriminate.
  - apply bind_Some in H as (e & He & H). apply bind_Some in H as (es' & Hes & H).
    injection H as <-. destruct (IH _ _ Hes) as (Hlen & Hall & Hi).
    apply ico_entry_inv in He as (w & h & Hw & Hh & Hoff & Hsz & ->).
    split; [cbn; rewrite Hlen; reflexivity|].
    split; [constructor; [apply length_dir_entry|exact Hall]|].
    intros [|i] p Hp; cbn in Hp.
    + injection Hp as <-. exists w, h, (dir_entry w h (Z.of_nat (length png)) off).
      cbn. rewrite Z.add_0_r. repeat split; try assumption; lia.
    + destruct (Hi i p Hp) as (w' & h' & e' & He' & Hw' & Hh' & Hoff' & Hsz' & Hdef).
      assert (E : off + Z.of_nat (length png) + Z.of_nat (length (concat (take i rest)))
                  = off + Z.of_nat (length (concat (take (S i) (png :: rest))))).
      { cbn. rewrite length_app. lia. }
      rewrite E in Hoff', Hdef. exists w', h', e'. split; [exact He'|]. repeat split; first [assumption|lia].
Qed.

Lemma createIco_inv pngs out :
  createIco pngs = Some out ->
  Z.of_nat (length pngs) < 65536 /\ exists es,
    ico_entries pngs (6 + Z.of_nat (length pngs) * 16) = Some es
    /\ out = [0; 0; 1; 0; Z.of_nat (length pngs) mod 256; Z.of_nat (length pngs) / 256]
             ++ concat es ++ concat pngs.
Proof.
  unfold createIco, writeUInt16LE. intros H.
  repeat match type of H with
         | _ ≫= _ = Some _ => apply bind_Some in H as (? & ? & H)
         end.
  repeat match goal with
         | Hw : write_le _ _ _ _ = Some _ |- _ => apply write_le_inv in Hw as (? & ? & ->)
         end.
  injection H as <-. cbn in *. split; [lia|].
  eexists. split; [eassumption|].
  rewrite (Z.mod_small (Z.of_nat (length pngs) / 256)); [reflexivity|].
  split; [apply Z.div_pos; lia|apply Z.div_lt_upper_bound; lia].
Qed.

Lemma length_concat16 (es : list buffer) :
  Forall (fun e => length e = 16%nat) es -> length (concat es) = (16 * length es)%nat.
Proof.
  induction 1 as [|e es He Hall IH]; cbn; [reflexivity|].
  rewrite length_app, He, IH. lia.
Qed.

Lemma drop_concat16 (es : list buffer) i :
  Forall (fun e => length e = 16%nat) es -> drop (16 * i) (concat es) = concat (drop i es).
Proof.
  intros Hall. revert i. induction Hall as [|e es He Hall IH]; intros i.
  - rewrite drop_nil. destruct i; reflexivity.
  - destruct i as [|i]; [reflexivity|]. cbn [concat drop].
    replace (16 * S i)%nat with (length e + 16 * i)%nat by lia.
    rewrite <- drop_drop, drop_app_length. apply IH.
Qed.

Lemma drop_concat_take (l : list buffer) i :
  drop (length (concat (take i l))) (concat l) = concat (drop i l).
Proof.
  rewrite <- (take_drop i l) at 2. rewrite concat_app, drop_app_length. reflexivity.
Qed.

Lemma readUInt32LE_at (buf : buffer) k v rest :
  drop k buf = le_bytes v 4 ++ rest -> 0 <= v < 2 ^ 32 -> readUInt32LE buf k = Some v.
Proof.
  intros Hd Hv. unfold readUInt32LE.
  assert (Hl : length (drop k buf) = (4 + length rest)%nat)
    by (rewrite Hd, length_app, length_le_bytes; reflexivity).
  rewrite length_drop in Hl.
  rewrite (proj2 (Nat.leb_le _ _)) by lia. rewrite Hd.
  rewrite take_app_length' by (rewrite length_le_bytes; reflexivity).
  rewrite read_le_le_bytes; [reflexivity|]. cbn. lia.
Qed.

(** X15.  The ICO file createIco builds is the 6-byte header (reserved 0,
    type 1, the image count in little endian) followed by 16 bytes per
    image and the images: its length is 6 + 16 n + the total size of the
    images; the image count is below 65536. *)
Theorem createIco_size_and_header pngs out :
  createIco pngs = Some out ->
  length out = (6 + 16 * length pngs + length (concat pngs))%nat
  /\ take 6 out = [0; 0; 1; 0; Z.of_nat (length pngs) mod 256; Z.of_nat (length pngs) / 256]
  /\ Z.of_nat (length pngs) < 65536.
Proof.
  intros H. destruct (createIco_inv pngs out H) as (Hn & es & Hes & ->).
  destruct (ico_entries_inv _ _ _ Hes) as (Hlen & Hall & _).
  split; [|split; [reflexivity|exact Hn]].
  rewrite !length_app, length_concat16 by exact Hall. cbn. lia.
Qed.

(** X16.  Each directory entry of the ICO file describes its image: the
    width and height bytes are those of the PNG header, 0 when they are
    256 or more; the size field is the image length; the offset field
    points at the image bytes, which are found there unchanged. *)
Theorem createIco_directory pngs out :
  createIco pngs = Some out ->
  forall i png, pngs !! i = Some png ->
  let offset := (6 + 16 * length pngs + length (concat (take i pngs)))%nat in
  exists width height,
    readUInt32BE png 16 = Some width /\ readUInt32BE png 20 = Some height
    /\ out !! (6 + 16 * i)%nat = Some (if 256 <=? width then 0 else width)
    /\ out !! (7 + 16 * i)%nat = Some (if 256 <=? height then 0 else height)
    /\ readUInt32LE out (6 + 16 * i + 8) = Some (Z.of_nat (length png))
    /\ readUInt32LE out (6 + 16 * i + 12) = Some (Z.of_nat offset)
    /\ take (length png) (drop offset out) = png.
Proof.
  intros H i png Hi offset.
  destruct (createIco_inv pngs out H) as (Hn & es & Hes & Hout).
  destruct (ico_entries_inv _ _ _ Hes) as (Hlen & Hall & Hent).
  destruct (Hent i png Hi) as (w & h & e & He & Hw & Hh & Hoff & Hsz & Hedef).
  exists w, h. split; [exact Hw|]. split; [exact Hh|].
  set (hdr := [0; 0; 1; 0; Z.of_nat (length pngs) mod 256; Z.of_nat (length pngs) / 256])
    in Hout.
  assert (Hi' : (i < length es)%nat) by (rewrite Hlen; apply lookup_lt_Some in Hi; exact Hi).
  assert (Hdrop : drop (6 + 16 * i) out = e ++ concat (drop (S i) es) ++ concat pngs).
  { rewrite Hout, <- drop_drop, drop_app_length' by reflexivity.
    rewrite drop_app_le by (rewrite length_concat16 by exact Hall; lia).
    rewrite drop_concat16 by exact Hall. rewrite (drop_S _ _ _ He). cbn.
    rewrite app_assoc. reflexivity. }
  assert (Hat : forall j, (j < 16)%nat -> out !! (6 + 16 * i + j)%nat = e !! j).
  { intros j Hj. rewrite <- lookup_drop, Hdrop. apply lookup_app_l.
    rewrite Hedef, length_dir_entry. exact Hj. }
  split; [replace (6 + 16 * i)%nat with (6 + 16 * i + 0)%nat by lia; rewrite (Hat 0%nat) by lia; rewrite Hedef; reflexivity|].
  split; [replace (7 + 16 * i)%nat with (6 + 16 * i + 1)%nat by lia;
          rewrite (Hat 1%nat) by lia; rewrite Hedef; reflexivity|].
  assert (Hd8 : drop (6 + 16 * i + 8) out =
                le_bytes (Z.of_nat (length png)) 4
                ++ le_bytes (6 + Z.of_nat (length pngs) * 16
                             + Z.of_nat (length (concat (take i pngs)))) 4
                ++ concat (drop (S i) es) ++ concat pngs).
  { rewrite <- drop_drop, Hdrop, Hedef. reflexivity. }
  split; [apply (readUInt32LE_at _ _ _ _ Hd8); lia|].
  split.
  - apply (readUInt32LE_at _ _ _ (concat (drop (S i) es) ++ concat pngs)).
    + replace (6 + 16 * i + 12)%nat with ((6 + 16 * i + 8) + 4)%nat by lia.
      rewrite <- drop_drop, Hd8. rewrite drop_app_length' by (rewrite length_le_bytes; reflexivity).
      unfold offset. f_equal. f_equal. lia.
    + unfold offset. lia.
  - unfold offset. rewrite <- drop_drop.
    assert (Hpre : drop (6 + 16 * length pngs) out = concat pngs).
    { rewrite Hout, app_assoc. apply drop_app_length'. rewrite length_app, length_concat16 by exact Hall.
      cbn. lia. }
    rewrite Hpre, drop_concat_take, (drop_S _ _ _ Hi). cbn. apply take_app_length.
Qed.

Lemma readUInt32BE_short png k :
  (length png < k + 4)%nat -> readUInt32BE png k = None.
Proof.
  intros H. unfold readUInt32BE. destruct (Nat.leb (k + 4) (length png)) eqn:E; [|reflexivity].
  apply Nat.leb_le in E. lia.
Qed.

(** X17.  createIco throws (a RangeError of readUInt32BE or
    writeUInt16LE) when an image is shorter than the 24 bytes that hold
    the PNG width and height, or when there are 65536 images or more. *)
Theorem createIco_rejects pngs :
  (exists png, png ∈ pngs /\ (length png < 24)%nat) \/ 65536 <= Z.of_nat (length pngs) ->
  createIco pngs = None.
Proof.
  intros Hbad. destruct (createIco pngs) as [out|] eqn:E; [|reflexivity]. exfalso.
  destruct (createIco_inv pngs out E) as (Hn & es & Hes & _).
  destruct Hbad as [(png & Hin & Hshort)|Hmany]; [|lia].
  apply list_elem_of_lookup_1 in Hin as (i & Hi).
  destruct (ico_entries_inv _ _ _ Hes) as (_ & _ & Hent).
  destruct (Hent i png Hi) as (w & h & e & _ & _ & Hh & _).
  rewrite readUInt32BE_short in Hh by lia. discriminate.
Qed.

Lemma fold_left_be_nonneg (l : list Z) acc :
  Forall (fun b => 0 <= b) l -> 0 <= acc -> 0 <= fold_left (fun acc b => acc * 256 + b) l acc.
Proof.
  intros Hl. revert acc. induction Hl as [|b l Hb Hl IH]; intros acc Hacc; cbn; [exact Hacc|].
  apply IH. lia.
Qed.

Lemma readUInt32BE_ok png k :
  (k + 4 <= length png)%nat -> Forall (fun b => 0 <= b) png ->
  exists v, readUInt32BE png k = Some v /\ 0 <= v.
Proof.
  intros Hk Hb. unfold readUInt32BE. rewrite (proj2 (Nat.leb_le _ _)) by exact Hk.
  eexists. split; [reflexivity|]. apply fold_left_be_nonneg; [|lia].
  apply Forall_take, Forall_drop, Hb.
Qed.

Lemma ico_entry_ok png off :
  (24 <= length png)%nat -> Forall (fun b => 0 <= b) png ->
  0 <= off < 2 ^ 32 -> Z.of_nat (length png) < 2 ^ 32 ->
  exists e, ico_entry png off = Some e.
Proof.
  intros Hlen Hb Hoff Hsz.
  destruct (readUInt32BE_ok png 16 ltac:(lia) Hb) as (w & Hw & Hw0).
  destruct (readUInt32BE_ok png 20 ltac:(lia) Hb) as (h & Hh & Hh0).
  pose proof (clamp_range w Hw0) as Cw. pose proof (clamp_range h Hh0) as Ch.
  unfold ico_entry, writeUInt8, writeUInt16LE, writeUInt32LE. rewrite Hw, Hh. cbn [mbind option_bind].
  repeat (rewrite write_le_run; [cbn [mbind option_bind]| cbn; lia
         | rewrite ?length_inserts; unfold buf_alloc; rewrite length_replicate; lia]).
  eexists. reflexivity.
Qed.

Lemma ico_entries_ok pngs off :
  Forall (fun png => (24 <= length png)%nat /\ Forall (fun b => 0 <= b < 256) png) pngs ->
  0 < off -> off + Z.of_nat (length (concat pngs)) <= 2 ^ 32 ->
  exists es, ico_entries pngs off = Some es.
Proof.
  intros Hall. revert off. induction Hall as [|png rest [Hlen Hb] Hall IH]; intros off H0 Hmax.
  - eexists. reflexivity.
  - cbn in Hmax. rewrite length_app in Hmax. change (2 ^ 32) with 4294967296 in *.
    destruct (ico_entry_ok png off Hlen) as (e & He).
    + apply (Forall_impl _ _ _ Hb). intros x Hx. lia.
    + change (2 ^ 32) with 4294967296. lia.
    + change (2 ^ 32) with 4294967296. lia.
    + destruct (IH (off + Z.of_nat (length png))) as (es & Hes); [lia|lia|].
      exists (e :: es). cbn. rewrite He. cbn. rewrite Hes. reflexivity.
Qed.

(** X18.  createIco succeeds on fewer than 65536 byte buffers of at least
    24 bytes each whose output fits the 32-bit offsets (6 + 16 n + the
    total size at most 2^32). *)
Theorem createIco_succeeds pngs :
  Z.of_nat (length pngs) < 65536 ->
  Forall (fun png => (24 <= length png)%nat /\ Forall (fun b => 0 <= b < 256) png) pngs ->
  6 + 16 * Z.of_nat (length pngs) + Z.of_nat (length (concat pngs)) <= 2 ^ 32 ->
  exists out, createIco pngs = Some out.
Proof.
  intros Hn Hall Hmax.
  destruct (ico_entries_ok pngs (6 + Z.of_nat (length pngs) * 16) Hall) as (es & Hes); [lia|lia|].
  unfold createIco, writeUInt16LE.
  rewrite write_le_run by (cbn; lia). cbn [mbind option_bind].
  rewrite write_le_run by (cbn; lia). cbn [mbind option_bind].
  rewrite write_le_run by (cbn; lia). cbn [mbind option_bind].
  rewrite Hes. eexists. reflexivity.
Qed.

End IconProofs.

(* ------------------------------------------------------------------ *)
(** ** Witnesses and concrete runs *)

Lemma first_run_defaults_witness :
  (∅ : disk) !! settingsPath = None /\ (∅ : disk) !! legacySettingsPath = None /\
  loadSettings keystore_up ∅ ∅ = (Ok defaultSettings, ∅).
Proof.
  split; [reflexivity|]. split; [reflexivity|].
  exact (proj1 (first_run_defaults keystore_up ∅ ∅ eq_refl eq_refl)).
Defined.

Definition null_disk : disk := <[settingsPath := ks_prefix ++ "null"]> ∅.

Lemma falsy_loaded_discarded_witness :
  secureStore_load keystore_up ∅ settingsPath JNull null_disk = (Ok JNull, null_disk) /\
  loadSettings keystore_up ∅ null_disk = (Ok defaultSettings, null_disk).
Proof.
  split; [vm_compute; reflexivity|].
  apply (falsy_loaded_discarded keystore_up ∅ null_disk null_disk JNull);
    vm_compute; reflexivity.
Defined.









Lemma delete_keeps_fallback_file_witness :
  (secureStore_delete ∅ settingsPath
     (secureStore_save keystore_down ∅ settingsPath sample_settings ∅).2).2
    !! "settings.enc.json" = Some (stringify sample_settings).
Proof.
  apply (delete_keeps_fallback_file keystore_down ∅ ∅ sample_settings eq_refl
           (not_elem_of_empty _)).
Defined.

(** C1 failing run: without encryption, saving {startMinimized: true}
    writes settings.enc.json, which load never reads: the next
    loadSettings returns the defaults. *)
Lemma fallback_save_not_read_back :
  let d1 := (saveSettings keystore_down ∅ [("startMinimized", JBool true)] ∅).2 in
  d1 = <["settings.enc.json" := stringify (JObj [("startMinimized", JBool true)])]> ∅
  /\ d1 !! legacySettingsPath = None
  /\ loadSettings keystore_down ∅ d1 = (Ok defaultSettings, d1)
  /\ merge_loaded (JObj [("startMinimized", JBool true)]) <> defaultSettings.
Proof. vm_compute. split; [reflexivity|]. split; [reflexivity|]. split; [reflexivity|]. discriminate. Qed.

(** C2 failing run: encryption available, the write of settings.enc is
    refused; save reports [false], yet the legacy file is unlinked and
    the disk ends up empty. *)
Lemma migration_unlinks_after_failed_write :
  secureStore_save keystore_up {[settingsPath]} settingsPath sample_settings legacy_disk
    = (Ok false, legacy_disk)
  /\ loadSettings keystore_up {[settingsPath]} legacy_disk
    = (Ok (merge_loaded sample_settings), ∅).
Proof. split; vm_compute; reflexivity. Qed.


(** ** Witnesses of the handler, auto-launch, tray and icon properties *)

Lemma request_filter_domain_families_witness :
  request_cancel "google.com" = false /\ request_cancel "mail.google.com" = false.
Proof.
  split; [reflexivity|].
  apply (proj2 (request_filter_domain_families "google.com" "mail")). reflexivity.
Defined.

Lemma certificate_suffix_only_witness : certificate_trusted "evilgoogle.com" = true.
Proof.
  apply (proj1 (certificate_suffix_only "evilgoogle.com")).
  exists "evil". left. reflexivity.
Defined.

Lemma main_window_handlers_agree_witness :
  main_will_navigate "https://gemini.google.com/app" = None
  /\ main_window_open "https://gemini.google.com/app" = WindowAllow.
Proof.
  split; [reflexivity|].
  apply (proj1 (main_window_handlers_agree "https://gemini.google.com/app")). reflexivity.
Defined.


Lemma main_window_link_dead_end_witness :
  contents_navigation_prevented "evil.example" = true /\
  main_window_navigation "https://evil.example/?next=gemini.google.com" "evil.example"
    = (true, None).
Proof.
  split; [reflexivity|].
  apply (main_window_link_dead_end "https://evil.example/?next=" "" "evil.example").
  reflexivity.
Defined.

Definition autostart_settings : obj :=
  [("startAtLogin", JBool true); ("startMinimized", JBool true)].


Lemma updateAutoLaunch_linux_entry_witness :
  updateAutoLaunch ∅ "linux" deck_home deck_exe deck_appDir autostart_settings ∅
  = (Ok (loginSettings_of deck_exe autostart_settings),
     <[desktopFile deck_home := desktopContent deck_exe (deck_appDir ++ "/assets/icon.png") true]> ∅).
Proof.
  apply (proj1 (updateAutoLaunch_linux_entry ∅ deck_home deck_exe deck_appDir
                  autostart_settings ∅ (not_elem_of_empty _)) eq_refl (not_elem_of_empty _)).
Defined.





Lemma tray_start_at_login_linux_witness :
  (tray_click_startAtLogin keystore_up ∅ "linux" deck_home deck_exe deck_appDir true
     defaultSettings ∅).2 !! desktopFile deck_home
  = Some (desktopContent deck_exe (deck_appDir ++ "/assets/icon.png") false).
Proof.
  destruct (tray_start_at_login_linux keystore_up ∅ defaultSettings deck_home deck_exe
              deck_appDir true ∅ (not_elem_of_empty _) (not_elem_of_empty _)) as (H & _).
  rewrite H. apply lookup_insert_eq.
Defined.

Lemma sample_ico_run : createIco [png16; png512] = Some sample_ico.
Proof. vm_compute. reflexivity. Qed.

Lemma createIco_size_and_header_witness :
  length sample_ico = 96%nat /\ take 6 sample_ico = [0; 0; 1; 0; 2; 0]%Z.
Proof.
  destruct (createIco_size_and_header _ _ sample_ico_run) as (Hl & Hh & _).
  split; [exact Hl|exact Hh].
Defined.

Lemma createIco_directory_witness :
  take 29 (drop 67 sample_ico) = png512 /\ sample_ico !! 22%nat = Some 0%Z.
Proof.
  destruct (createIco_directory _ _ sample_ico_run 1 png512 eq_refl)
    as (w & h & Hw & _ & Hb & _ & _ & _ & Ht).
  vm_compute in Hw. injection Hw as <-. split; [exact Ht|exact Hb].
Defined.

Lemma createIco_rejects_witness : createIco [png16; take 20 png512] = None.
Proof.
  apply createIco_rejects. left. exists (take 20 png512). split.
  - rewrite !elem_of_cons. right. left. reflexivity.
  - cbn. lia.
Defined.

Lemma createIco_succeeds_witness : exists out, createIco [png16; png512] = Some out.
Proof.
  apply createIco_succeeds.
  - cbn. lia.
  - apply (bool_decide_unpack _). vm_compute. reflexivity.
  - cbn. lia.
Defined.
